(** * so-analyzer-android: the native JNI helpers of [disassembler.cpp]

    A shallow embedding of the four entry points of the native library
    ([disassembleARM64], [parseELFHeader], [extractStrings] and
    [calculateHash]) and the properties of them that the specification
    states.

    Conventions.
    - A Java [byte[]] is a [list jbyte]; a [jbyte] is kept as its eight raw
      bits ([Byte.byte]) and read either as the signed value the C++ code
      sees through [jbyte*] ([jbyte_to_int]) or, after the cast
      [(unsigned char)], as a value in 0..255 ([to_uchar]).
    - [jint] and [jsize] are 32-bit signed integers, carried as [Z] with the
      range predicate [jint_range]; [size_t] has the width of the target ABI.
    - A [std::string] is the list of its [char]s; a [std::vector] is a list
      that grows at its end. *)

From Stdlib Require Import ZArith List Bool Lia String Ascii.
From Stdlib.Strings Require Import Byte.
Import ListNotations.
Open Scope Z_scope.

(** ** Host types (jni.h and the C++ integer conversions) *)

Module JNI.

(** [jbyte] is [signed char]: eight bits, two's complement. *)
Definition jbyte : Type := byte.

(** The bit pattern of a byte as a number in 0..255. *)
Definition bits (b : byte) : Z := Z.of_N (Byte.to_N b).

(** Integral promotion of a [jbyte] to [int]: sign extension. *)
Definition jbyte_to_int (b : jbyte) : Z :=
  if bits b <? 128 then bits b else bits b - 256.

(** The cast [(unsigned char)x] of an integer: reduction modulo 2^8. *)
Definition to_uchar (x : Z) : Z := x mod 256.

(** The cast [(char)c] of an [unsigned char]: the same eight bits. *)
Definition to_char (c : Z) : byte :=
  match Byte.of_N (Z.to_N c) with
  | Some b => b
  | None => x00
  end.

(** [jint] and [jsize] are [int32_t]. *)
Definition jint_min : Z := - 2 ^ 31.
Definition jint_max : Z := 2 ^ 31 - 1.
Definition jint_range (n : Z) : Prop := jint_min <= n <= jint_max.

(** [GetArrayLength]: the number of elements of a Java array. *)
Definition GetArrayLength {A : Type} (a : list A) : Z :=
  Z.of_nat (List.length a).

(** A Java array holds at most [Integer.MAX_VALUE] elements, which is why
    its length fits the [jsize] that [GetArrayLength] returns. *)
Definition jarray_ok {A : Type} (a : list A) : Prop :=
  GetArrayLength a <= jint_max.

(** [bytes[i]] on the pointer [GetByteArrayElements] returns.  Every use
    below is guarded by a test of [i] against the array length. *)
Definition elem (bytes : list jbyte) (i : Z) : jbyte :=
  nth (Z.to_nat i) bytes x00.

(** The data model of the target: Android builds the library both for
    32-bit ABIs (armeabi-v7a, x86) and 64-bit ABIs (arm64-v8a, x86_64). *)
Inductive abi : Type := ILP32 | LP64.

Definition size_t_bits (a : abi) : Z :=
  match a with
  | ILP32 => 32
  | LP64 => 64
  end.

(** Conversion of an [int] to [size_t] (the usual arithmetic conversions
    when an [int] meets a [size_t] in a comparison): modulo 2^width. *)
Definition int_to_size_t (a : abi) (n : Z) : Z := n mod 2 ^ size_t_bits a.

End JNI.
Import JNI.

(** ** std::string *)

Module Std.

Definition string : Type := list byte.

(** [s.length()] *)
Definition length (s : string) : Z := Z.of_nat (List.length s).

(** [s += ch] *)
Definition append_char (s : string) (ch : byte) : string := s ++ [ch].

(** [v.push_back(x)] *)
Definition push_back {A : Type} (v : list A) (x : A) : list A := v ++ [x].

(** [s.c_str()] as a C string reads it: the characters before the first
    NUL. *)
Fixpoint c_str (s : string) : list byte :=
  match s with
  | [] => []
  | ch :: s' => if Byte.eqb ch x00 then [] else ch :: c_str s'
  end.

End Std.

(** [NewStringUTF]: a Java string from a C string in modified UTF-8.  The
    strings built here hold bytes 32..126 only ([extractStrings_collected]),
    each of which encodes the one character of that code, so a Java string
    is kept as the list of these codes. *)
Definition NewStringUTF (utf : list byte) : list byte := utf.

(** ** parseELFHeader *)

(** The function returns [nullptr] ([None]) or a fresh [jint[5]].  The
    operator [||] of C++ evaluates its right operand only when the left one
    is false, so [bytes[0]] .. [bytes[3]] are read only in a buffer of 20
    bytes or more; the reads have no effect, and the value of the condition
    is that of the boolean disjunction. *)
Definition parseELFHeader (data : list jbyte) : option (list Z) :=
  let bytes := elem data in
  let dataLength := GetArrayLength data in
  if (dataLength <? 20)
     || negb (jbyte_to_int (bytes 0) =? 127)                (* 0x7F *)
     || negb (jbyte_to_int (bytes 1) =? 69)                 (* 'E' *)
     || negb (jbyte_to_int (bytes 2) =? 76)                 (* 'L' *)
     || negb (jbyte_to_int (bytes 3) =? 70)                 (* 'F' *)
  then None
  else
    Some [ jbyte_to_int (bytes 4);     (* e_ident[EI_CLASS] *)
           jbyte_to_int (bytes 5);     (* e_ident[EI_DATA] *)
           jbyte_to_int (bytes 6);     (* e_ident[EI_VERSION] *)
           jbyte_to_int (bytes 7);     (* e_ident[EI_OSABI] *)
           jbyte_to_int (bytes 8) ].   (* e_ident[EI_ABIVERSION] *)

(** The ELF magic, as bytes. *)
Definition elf_magic : list byte := [x7f; x45; x4c; x46].

(** ** extractStrings *)

(** The two locals the scanning loop updates. *)
Record locals : Type := mkLocals {
  strings : list Std.string;
  current : Std.string
}.

Definition locals_init : locals := {| strings := []; current := [] |}.

(** The body of the [for] loop, for the byte [bytes[i]]. *)
Definition loop_body (a : abi) (minLength : Z) (st : locals) (b : jbyte)
  : locals :=
  let c := to_uchar (jbyte_to_int b) in
  if (c >=? 32) && (c <=? 126) then
    {| strings := strings st;
       current := Std.append_char (current st) (to_char c) |}
  else if (c =? 0) && (Std.length (current st) >=? int_to_size_t a minLength)
  then
    {| strings := Std.push_back (strings st) (current st);
       current := [] |}
  else
    {| strings := strings st; current := [] |}.

(** [for (jsize i = 0; i < dataLength; i++)]: the body neither writes [i] nor
    leaves the loop, so it runs once for each of the [dataLength - i] indices
    that remain; [n] counts them. *)
Fixpoint for_loop (a : abi) (minLength : Z) (bytes : list jbyte)
    (n : nat) (i : Z) (st : locals) : locals :=
  match n with
  | O => st
  | S n' =>
      for_loop a minLength bytes n' (i + 1)
        (loop_body a minLength st (elem bytes i))
  end.

Definition extractStrings (a : abi) (data : list jbyte) (minLength : Z)
  : list (list byte) :=
  let dataLength := GetArrayLength data in
  let st := for_loop a minLength data (Z.to_nat dataLength) 0 locals_init in
  map (fun s => NewStringUTF (Std.c_str s)) (strings st).

(** ** calculateHash and disassembleARM64 *)

Definition calculateHash (data : list jbyte) : String.string :=
  "0000000000000000000000000000000000000000000000000000000000000000"%string.

(** The result is [NewObjectArray(0, String, nullptr)]: an array of Java
    strings with no element. *)
Definition disassembleARM64 (code : list jbyte) (address : Z)
  : list String.string :=
  let codeLength := GetArrayLength code in
  [].

(** ** Notions the properties are stated with *)

(** The condition under which the header is accepted. *)
Definition elf_ident_ok (B : list jbyte) : Prop :=
  20 <= GetArrayLength B /\ firstn 4 B = elf_magic.

(** The first end-to-end scenario of the specification, with eleven zero
    bytes after the identification. *)
Definition scenario1 : list jbyte :=
  [x7f; x45; x4c; x46; x02; x01; x01; x00; x00] ++ repeat x00 11.

(** A header whose osAbi byte is 0xFF. *)
Definition header_osabi_ff : list jbyte :=
  [x7f; x45; x4c; x46; x02; x01; x01; xff; x00] ++ repeat x00 11.

(** The printable ASCII bytes. *)
Definition printable (b : byte) : Prop := 32 <= bits b <= 126.

(** The loop as a left fold of its body over the buffer. *)
Definition scan (a : abi) (minLength : Z) (l : list jbyte) (st : locals)
  : locals :=
  fold_left (loop_body a minLength) l st.

(** What the loop maintains after it has read the prefix [P] of the
    buffer: [current] is a printable suffix of [P], and every collected
    string is printable, long enough, and sits in [P] right before a 0
    byte. *)
Record scanned (a : abi) (minLength : Z) (P : list jbyte) (st : locals)
  : Prop := {
  current_printable : Forall printable (current st);
  current_suffix : exists pre, P = pre ++ current st;
  collected :
    Forall (fun s =>
              Forall printable s /\
              int_to_size_t a minLength <= Std.length s /\
              exists pre post, P = pre ++ s ++ x00 :: post)
           (strings st)
}.

(** "Hi!" and its terminator: the second buffer of scenario 2. *)
Definition hi_bang_nul : list jbyte := [x48; x69; x21; x00].

(** The SHA-256 digest of the empty input, in lowercase hexadecimal
    (FIPS 180-4). *)
Definition sha256_empty_hex : String.string :=
  "e3b0c44298fc1c149afbf4c8996fb92427ae41e4649b934ca495991b7852b855"%string.

(** Every A64 instruction is four bytes wide. *)
Definition arm64_min_width : nat := 4.

(** The prefix of the code that whole instructions cover: its length is
    the largest multiple of the instruction width within the code. *)
Definition covered_prefix (code : list jbyte) : list jbyte :=
  firstn (arm64_min_width * (List.length code / arm64_min_width)) code.

(** The A64 instruction NOP (0xD503201F), little endian. *)
Definition arm64_nop : list jbyte := [x1f; x20; x03; xd5].

(** The number of 0 bytes of a buffer. *)
Definition nul_count (B : list jbyte) : nat :=
  count_occ Byte.byte_eq_dec B x00.

(** The bytes of the buffer that a list of returned strings accounts for:
    the characters of each string and the 0 byte that ended it. *)
Definition footprint (ss : list Std.string) : nat :=
  list_sum (map (fun s => S (List.length s)) ss).

(** The test of a string against a threshold that is not negative. *)
Definition long_enough (m : Z) (s : Std.string) : bool :=
  m <=? Std.length s.

(** A second header that differs from [scenario1] from offset 9 on. *)
Definition scenario1_padded : list jbyte :=
  [x7f; x45; x4c; x46; x02; x01; x01; x00; x00] ++ repeat xff 23.

(** * Properties *)

(** Side conditions on the ranges of [jint] and of array lengths. *)
Ltac jni_range :=
  unfold jarray_ok, GetArrayLength, jint_range, jint_min, jint_max;
  cbn; lia.

(** ** Bytes and their two readings *)

Section ByteFacts.

Lemma bits_range (b : byte) : 0 <= bits b <= 255.
Proof.
  unfold bits. pose proof (Byte.to_N_bounded b). lia.
Qed.

Lemma bits_inj (b b' : byte) : bits b = bits b' -> b = b'.
Proof.
  unfold bits. intros H. apply N2Z.inj in H.
  pose proof (Byte.of_to_N b) as E. rewrite H, Byte.of_to_N in E.
  now inversion E.
Qed.

Lemma jbyte_to_int_range (b : jbyte) : -128 <= jbyte_to_int b <= 127.
Proof.
  unfold jbyte_to_int. pose proof (bits_range b).
  destruct (Z.ltb_spec (bits b) 128); lia.
Qed.

(** Reading a byte signed and casting it back to [unsigned char] gives its
    bit pattern. *)
Lemma to_uchar_jbyte (b : jbyte) : to_uchar (jbyte_to_int b) = bits b.
Proof.
  unfold to_uchar, jbyte_to_int. pose proof (bits_range b).
  destruct (Z.ltb_spec (bits b) 128).
  - apply Z.mod_small. lia.
  - symmetry. apply (Z.mod_unique_pos _ _ (-1)); lia.
Qed.

Lemma to_char_bits (b : byte) : to_char (bits b) = b.
Proof.
  unfold to_char, bits. now rewrite N2Z.id, Byte.of_to_N.
Qed.

(** Below 128 the signed reading is the bit pattern. *)
Lemma jbyte_eqb_small (b : jbyte) (k : Z) :
  0 <= k < 128 -> (jbyte_to_int b =? k) = true <-> bits b = k.
Proof.
  intros Hk. rewrite Z.eqb_eq. unfold jbyte_to_int.
  pose proof (bits_range b).
  destruct (Z.ltb_spec (bits b) 128); lia.
Qed.

Lemma jbyte_is (b c : jbyte) :
  0 <= bits c < 128 -> (jbyte_to_int b =? bits c) = true <-> b = c.
Proof.
  intros Hc. rewrite (jbyte_eqb_small b (bits c) Hc). split.
  - apply bits_inj.
  - now intros ->.
Qed.

(** An index below the array length reads an element of the array. *)
Lemma elem_in_bounds (bytes : list jbyte) (i : Z) :
  0 <= i < GetArrayLength bytes ->
  nth_error bytes (Z.to_nat i) = Some (elem bytes i).
Proof.
  unfold GetArrayLength, elem. intros Hi.
  apply nth_error_nth'. lia.
Qed.

End ByteFacts.

(** ** parseELFHeader *)

Section ElfHeader.

Lemma magic_test (b0 b1 b2 b3 : jbyte) :
  negb (jbyte_to_int b0 =? 127) || negb (jbyte_to_int b1 =? 69)
    || negb (jbyte_to_int b2 =? 76) || negb (jbyte_to_int b3 =? 70) = false
  <-> [b0; b1; b2; b3] = elf_magic.
Proof.
  unfold elf_magic.
  pose proof (jbyte_is b0 x7f) as H0. pose proof (jbyte_is b1 x45) as H1.
  pose proof (jbyte_is b2 x4c) as H2. pose proof (jbyte_is b3 x46) as H3.
  change (bits x7f) with 127 in H0. change (bits x45) with 69 in H1.
  change (bits x4c) with 76 in H2. change (bits x46) with 70 in H3.
  rewrite !orb_false_iff, !negb_false_iff, H0, H1, H2, H3 by lia.
  split.
  - intros [[[-> ->] ->] ->]. reflexivity.
  - intros E. inversion E. auto.
Qed.

(** The guard of [parseELFHeader], as a proposition. *)
Lemma parseELFHeader_guard (B : list jbyte) :
  parseELFHeader B <> None <-> elf_ident_ok B.
Proof.
  unfold parseELFHeader, elf_ident_ok, GetArrayLength.
  destruct B as [|b0 [|b1 [|b2 [|b3 rest]]]];
    try (cbn; split; [congruence | lia]).
  unfold elem. cbn [Z.to_nat nth firstn Pos.to_nat Pos.iter_op Nat.add].
  rewrite <- magic_test, <- !orb_assoc.
  destruct (Z.ltb_spec
              (Z.of_nat (List.length (b0 :: b1 :: b2 :: b3 :: rest))) 20)
    as [Hlt|Hge]; cbn [orb].
  - split; [congruence | lia].
  - destruct (negb _ || _); intuition congruence.
Qed.

(** What an accepted header yields: the five bytes at offsets 4..8, each
    promoted to [jint]. *)
Lemma parseELFHeader_some (B : list jbyte) :
  elf_ident_ok B ->
  parseELFHeader B = Some (map jbyte_to_int (firstn 5 (skipn 4 B))).
Proof.
  intros Hok. pose proof (proj2 (parseELFHeader_guard B) Hok) as Hne.
  destruct Hok as [Hlen _]. unfold GetArrayLength in Hlen.
  do 9 (destruct B as [|? B]; [cbn in Hlen; lia|]).
  revert Hne. unfold parseELFHeader.
  destruct (_ || _); [congruence | reflexivity].
Qed.

Lemma parseELFHeader_inv (B : list jbyte) (r : list Z) :
  parseELFHeader B = Some r ->
  elf_ident_ok B /\ r = map jbyte_to_int (firstn 5 (skipn 4 B)).
Proof.
  intros E.
  assert (Hok : elf_ident_ok B) by (apply parseELFHeader_guard; congruence).
  split; [exact Hok|].
  rewrite (parseELFHeader_some B Hok) in E. congruence.
Qed.

(** C1. [parseELFHeader] succeeds exactly on the buffers of at least 20
    bytes that start with 0x7F 'E' 'L' 'F'; on every other buffer it
    returns [nullptr], and a result it does return is complete, with all
    five fields: there is no partial result. *)
Theorem parseELFHeader_succeeds_iff (B : list jbyte) :
  ((exists r, parseELFHeader B = Some r) <->
     20 <= GetArrayLength B /\ firstn 4 B = [x7f; x45; x4c; x46]) /\
  (~ (20 <= GetArrayLength B /\ firstn 4 B = [x7f; x45; x4c; x46]) ->
     parseELFHeader B = None) /\
  (forall r, parseELFHeader B = Some r -> List.length r = 5%nat).
Proof.
  fold elf_magic. fold (elf_ident_ok B).
  pose proof (parseELFHeader_guard B) as G.
  split; [split | split].
  - intros [r E]. apply G. congruence.
  - intros Hok. eexists. now apply parseELFHeader_some.
  - intros Hno. destruct (parseELFHeader B) eqn:E; [|reflexivity].
    exfalso. apply Hno, G. congruence.
  - intros r E. apply parseELFHeader_inv in E as [[Hlen _] ->].
    unfold GetArrayLength in Hlen.
    rewrite length_map, length_firstn, length_skipn. lia.
Qed.

(** X1. Corrupting any one byte of the magic turns success into failure. *)
Lemma parseELFHeader_magic_corrupted (pre post : list jbyte) (b b' : jbyte) :
  (List.length pre < 4)%nat -> b' <> b ->
  parseELFHeader (pre ++ b :: post) <> None ->
  parseELFHeader (pre ++ b' :: post) = None.
Proof.
  intros Hpre Hb Hok. apply parseELFHeader_guard in Hok as [_ Hm].
  destruct (parseELFHeader (pre ++ b' :: post)) eqn:E; [|reflexivity].
  exfalso. assert (G : elf_ident_ok (pre ++ b' :: post))
    by (apply parseELFHeader_guard; congruence).
  destruct G as [_ Hm']. unfold elf_magic in *.
  destruct pre as [|p0 [|p1 [|p2 [|p3 pre]]]]; cbn in *;
    try lia; congruence.
Qed.

(** C6. On a buffer of at least 20 bytes that starts with the magic the
    result is the five bytes at offsets 4, 5, 6, 7, 8, in this order
    (fileClass, endianness, headerVersion, osAbi, abiVersion), each as a
    [jint]; when these bytes are 2, 1, 1, 0, 0 the result is
    [2; 1; 1; 0; 0]. *)
Theorem parseELFHeader_reads_ident (B : list jbyte) :
  20 <= GetArrayLength B -> firstn 4 B = [x7f; x45; x4c; x46] ->
  (exists c d v o a : jbyte,
      nth_error B 4 = Some c /\ nth_error B 5 = Some d /\
      nth_error B 6 = Some v /\ nth_error B 7 = Some o /\
      nth_error B 8 = Some a /\
      parseELFHeader B =
        Some [jbyte_to_int c; jbyte_to_int d; jbyte_to_int v;
              jbyte_to_int o; jbyte_to_int a]) /\
  (firstn 5 (skipn 4 B) = [x02; x01; x01; x00; x00] ->
     parseELFHeader B = Some [2; 1; 1; 0; 0]).
Proof.
  intros Hlen Hm.
  assert (Hok : elf_ident_ok B) by (split; assumption).
  rewrite (parseELFHeader_some B Hok). split.
  - unfold GetArrayLength in Hlen.
    do 9 (destruct B as [|? B]; [cbn in Hlen; lia|]).
    do 5 eexists. cbn. repeat split; reflexivity.
  - intros ->. reflexivity.
Qed.

Lemma parseELFHeader_reads_ident_witness :
  parseELFHeader scenario1 = Some [2; 1; 1; 0; 0].
Proof.
  refine (proj2 (parseELFHeader_reads_ident scenario1 _ _) _).
  - jni_range.
  - reflexivity.
  - reflexivity.
Defined.

(** C9. Each of the five integers of a result lies in -128..127: the
    field at index [k] is the byte at offset [4 + k] read signed, that is
    its value [v] when [v < 128] and [v - 256] when [v >= 128], so no field
    is ever in 128..255. *)
Theorem parseELFHeader_sign_extends (B : list jbyte) (r : list Z) :
  parseELFHeader B = Some r ->
  Forall (fun x => -128 <= x <= 127) r /\
  (forall (k : nat) (b : jbyte), (k < 5)%nat ->
     nth_error B (4 + k) = Some b ->
     (128 <= bits b -> nth_error r k = Some (bits b - 256)) /\
     (bits b < 128 -> nth_error r k = Some (bits b))).
Proof.
  intros E. apply parseELFHeader_inv in E as [_ ->]. split.
  - apply Forall_map, Forall_forall. intros b _. apply jbyte_to_int_range.
  - intros k b Hk Hb.
    assert (Hr : nth_error (map jbyte_to_int (firstn 5 (skipn 4 B))) k
                 = Some (jbyte_to_int b)).
    { rewrite nth_error_map, nth_error_firstn, nth_error_skipn, Hb.
      apply Nat.ltb_lt in Hk. now rewrite Hk. }
    rewrite Hr. unfold jbyte_to_int.
    destruct (Z.ltb_spec (bits b) 128); split; intros; try lia; reflexivity.
Qed.

Lemma parseELFHeader_sign_extends_witness :
  Forall (fun x => -128 <= x <= 127) [2; 1; 1; -1; 0] /\
  (forall (k : nat) (b : jbyte), (k < 5)%nat ->
     nth_error header_osabi_ff (4 + k) = Some b ->
     (128 <= bits b -> nth_error [2; 1; 1; -1; 0] k = Some (bits b - 256)) /\
     (bits b < 128 -> nth_error [2; 1; 1; -1; 0] k = Some (bits b))).
Proof.
  apply (parseELFHeader_sign_extends header_osabi_ff [2; 1; 1; -1; 0]).
  reflexivity.
Defined.

End ElfHeader.

(** ** extractStrings: the scanning loop *)

Section Scan.

Variable a : abi.
Variable minLength : Z.

Lemma byte_cases (b : byte) :
  printable b \/ b = x00 \/ (~ printable b /\ b <> x00).
Proof.
  unfold printable. pose proof (bits_range b).
  destruct (Z.eq_dec (bits b) 0) as [E|E].
  - right; left. apply bits_inj. exact E.
  - destruct (Z_le_dec 32 (bits b)), (Z_le_dec (bits b) 126);
      try (left; lia); right; right; (split; [lia | intros ->; now apply E]).
Qed.

Lemma printable_not_nul (b : byte) : printable b -> b <> x00.
Proof. intros H ->. unfold printable in H. cbn in H. lia. Qed.

(** The three branches of the loop body. *)
Lemma loop_body_printable (st : locals) (b : jbyte) :
  printable b ->
  loop_body a minLength st b
  = {| strings := strings st; current := current st ++ [b] |}.
Proof.
  intros [Hlo Hhi]. unfold loop_body.
  rewrite to_uchar_jbyte, to_char_bits, Z.geb_leb.
  apply Z.leb_le in Hlo, Hhi. now rewrite Hlo, Hhi.
Qed.

Lemma loop_body_nul (st : locals) :
  loop_body a minLength st x00
  = if Std.length (current st) >=? int_to_size_t a minLength
    then {| strings := strings st ++ [current st]; current := [] |}
    else {| strings := strings st; current := [] |}.
Proof. reflexivity. Qed.

Lemma loop_body_other (st : locals) (b : jbyte) :
  ~ printable b -> b <> x00 ->
  loop_body a minLength st b = {| strings := strings st; current := [] |}.
Proof.
  intros Hnp Hnz. unfold loop_body. rewrite to_uchar_jbyte, Z.geb_leb.
  assert (Hb : bits b <> 0) by (intros E; apply Hnz, bits_inj; exact E).
  unfold printable in Hnp.
  destruct (Z.leb_spec 32 (bits b)), (Z.leb_spec (bits b) 126),
    (Z.eqb_spec (bits b) 0); cbn; try reflexivity; lia.
Qed.

Lemma scan_cons (b : jbyte) (l : list jbyte) (st : locals) :
  scan a minLength (b :: l) st
  = scan a minLength l (loop_body a minLength st b).
Proof. reflexivity. Qed.

Lemma scan_app (l l' : list jbyte) (st : locals) :
  scan a minLength (l ++ l') st
  = scan a minLength l' (scan a minLength l st).
Proof. apply fold_left_app. Qed.

Lemma for_loop_scan (rest pre : list jbyte) (st : locals) :
  for_loop a minLength (pre ++ rest) (List.length rest)
    (Z.of_nat (List.length pre)) st
  = scan a minLength rest st.
Proof.
  revert pre st. induction rest as [|b rest IH]; intros pre st.
  - reflexivity.
  - cbn [List.length for_loop]. rewrite scan_cons.
    unfold elem at 1. rewrite Nat2Z.id, nth_middle.
    replace (Z.of_nat (List.length pre) + 1)
      with (Z.of_nat (List.length (pre ++ [b])))
      by (rewrite length_app; cbn; lia).
    replace (pre ++ b :: rest) with ((pre ++ [b]) ++ rest)
      by (rewrite <- app_assoc; reflexivity).
    apply IH.
Qed.

(** The C-string reading of a printable string is the string itself. *)
Lemma c_str_printable (s : Std.string) :
  Forall printable s -> Std.c_str s = s.
Proof.
  induction 1 as [|b s Hb _ IH]; [reflexivity|].
  cbn. destruct (Byte.eqb b x00) eqn:E.
  - apply Byte.byte_dec_bl in E. now apply printable_not_nul in Hb.
  - now rewrite IH.
Qed.

Lemma scanned_init : scanned a minLength [] locals_init.
Proof.
  split; cbn; [constructor | now exists [] | constructor].
Qed.

Lemma collected_extend (P : list jbyte) (b : jbyte) (ss : list Std.string) :
  Forall (fun s => Forall printable s /\
                   int_to_size_t a minLength <= Std.length s /\
                   exists pre post, P = pre ++ s ++ x00 :: post) ss ->
  Forall (fun s => Forall printable s /\
                   int_to_size_t a minLength <= Std.length s /\
                   exists pre post, P ++ [b] = pre ++ s ++ x00 :: post) ss.
Proof.
  apply Forall_impl. intros s (Hp & Hlen & pre & post & ->).
  repeat split; try assumption.
  exists pre, (post ++ [b]). now rewrite <- !app_assoc.
Qed.

Lemma scanned_step (P : list jbyte) (st : locals) (b : jbyte) :
  scanned a minLength P st ->
  scanned a minLength (P ++ [b]) (loop_body a minLength st b).
Proof.
  intros [Hcur [pre Hpre] Hcol].
  destruct (byte_cases b) as [Hb | [-> | [Hnp Hnz]]].
  - rewrite loop_body_printable by assumption. split; cbn.
    + apply Forall_app. split; [assumption | now constructor].
    + exists pre. now rewrite Hpre, <- app_assoc.
    + now apply collected_extend.
  - rewrite loop_body_nul.
    destruct (Z.geb_spec (Std.length (current st))
                (int_to_size_t a minLength)) as [Hge|Hlt];
      split; cbn; try constructor;
      try (now exists (P ++ [x00]); rewrite app_nil_r);
      try (now apply collected_extend).
    apply Forall_app. split; [now apply collected_extend|].
    constructor; [|constructor]. repeat split; try assumption.
    exists pre, []. now rewrite Hpre, <- app_assoc.
  - rewrite loop_body_other by assumption. split; cbn.
    + constructor.
    + exists (P ++ [b]). now rewrite app_nil_r.
    + now apply collected_extend.
Qed.

Lemma scanned_scan (rest P : list jbyte) (st : locals) :
  scanned a minLength P st ->
  scanned a minLength (P ++ rest) (scan a minLength rest st).
Proof.
  revert P st. induction rest as [|b rest IH]; intros P st H.
  - now rewrite app_nil_r.
  - cbn. replace (P ++ b :: rest) with ((P ++ [b]) ++ rest)
      by (rewrite <- app_assoc; reflexivity).
    apply IH, scanned_step, H.
Qed.

(** The strings returned are the strings collected: marshalling them
    through [c_str] and [NewStringUTF] changes none. *)
Lemma extractStrings_scan (B : list jbyte) :
  extractStrings a B minLength = strings (scan a minLength B locals_init).
Proof.
  unfold extractStrings, GetArrayLength, NewStringUTF.
  rewrite Nat2Z.id.
  change 0 with (Z.of_nat (List.length (@nil jbyte))).
  change B with ([] ++ B) at 1. rewrite for_loop_scan.
  pose proof (scanned_scan B [] locals_init scanned_init) as [_ _ Hcol].
  induction Hcol as [|s ss (Hs & _) _ IH]; [reflexivity|].
  cbn. now rewrite c_str_printable, IH.
Qed.

Lemma extractStrings_collected (B : list jbyte) :
  Forall (fun s => Forall printable s /\
                   int_to_size_t a minLength <= Std.length s /\
                   exists pre post, B = pre ++ s ++ x00 :: post)
         (extractStrings a B minLength).
Proof.
  rewrite extractStrings_scan.
  exact (collected _ _ _ _ (scanned_scan B [] locals_init scanned_init)).
Qed.

End Scan.

(** ** extractStrings: the threshold and the results *)

Section Threshold.

Variable a : abi.

Lemma size_t_bits_cases : size_t_bits a = 32 \/ size_t_bits a = 64.
Proof. destruct a; [left | right]; reflexivity. Qed.

(** A threshold that is not negative is compared as it is. *)
Lemma int_to_size_t_nonneg (m : Z) :
  jint_range m -> 0 <= m -> int_to_size_t a m = m.
Proof.
  unfold jint_range, jint_min, jint_max, int_to_size_t. intros Hr Hm.
  apply Z.mod_small. destruct size_t_bits_cases as [-> | ->]; lia.
Qed.

(** A negative threshold is compared as a number of at least 2^31. *)
Lemma int_to_size_t_neg (m : Z) :
  jint_range m -> m < 0 -> 2 ^ 31 <= int_to_size_t a m.
Proof.
  unfold jint_range, jint_min, jint_max, int_to_size_t. intros Hr Hm.
  destruct size_t_bits_cases as [-> | ->].
  - rewrite <- (Z.mod_unique_pos m (2 ^ 32) (-1) (m + 2 ^ 32)); lia.
  - rewrite <- (Z.mod_unique_pos m (2 ^ 64) (-1) (m + 2 ^ 64)); lia.
Qed.

Lemma threshold_le (m n : Z) :
  jint_range m -> 0 <= n -> int_to_size_t a m <= n -> m <= n.
Proof.
  intros Hr Hn H. destruct (Z_lt_le_dec m 0) as [Hneg|Hpos]; [lia|].
  now rewrite int_to_size_t_nonneg in H.
Qed.

(** A printable run leaves the collected strings as they are. *)
Lemma scan_printable_run (m : Z) (R : list jbyte) (st : locals) :
  Forall printable R -> strings (scan a m R st) = strings st.
Proof.
  intros HR. revert st. induction HR as [|b R Hb _ IH]; intros st.
  - reflexivity.
  - now rewrite scan_cons, IH, loop_body_printable.
Qed.

(** Under a negative threshold nothing is collected, as long as the
    accumulator stays shorter than 2^31. *)
Lemma scan_negative (m : Z) (rest : list jbyte) (st : locals) :
  jint_range m -> m < 0 ->
  Std.length (current st) + Std.length rest <= jint_max ->
  strings st = [] ->
  strings (scan a m rest st) = [].
Proof.
  intros Hr Hm. pose proof (int_to_size_t_neg m Hr Hm) as Hthr.
  revert st. induction rest as [|b rest IH]; intros st Hlen Hs.
  - exact Hs.
  - rewrite scan_cons. unfold Std.length, jint_max in *.
    cbn [List.length] in Hlen.
    destruct (byte_cases b) as [Hb | [-> | [Hnp Hnz]]].
    + rewrite loop_body_printable by assumption.
      apply IH; cbn; [rewrite length_app; cbn; lia | assumption].
    + rewrite loop_body_nul. unfold Std.length.
      destruct (Z.geb_spec (Z.of_nat (List.length (current st)))
                  (int_to_size_t a m)); [lia|].
      apply IH; cbn; [lia | assumption].
    + rewrite loop_body_other by assumption.
      apply IH; cbn; [lia | assumption].
Qed.

End Threshold.

Section ExtractStrings.

(** C2. Every string [extractStrings] returns has at least [m] characters,
    all of them printable (32..126), and lies in the buffer at an offset
    [off] such that the byte right after its last character, at
    [off + length], exists and is 0. *)
Theorem extractStrings_sound (a : abi) (B : list jbyte) (m : Z) :
  jint_range m ->
  Forall (fun s =>
            m <= Std.length s /\
            Forall (fun c => 32 <= bits c <= 126) s /\
            exists off : nat,
              firstn (List.length s) (skipn off B) = s /\
              nth_error B (off + List.length s) = Some x00)
         (extractStrings a B m).
Proof.
  intros Hr. eapply Forall_impl; [|apply extractStrings_collected].
  cbv beta. intros s (Hp & Hlen & pre & post & ->). split; [|split].
  - apply (threshold_le a); [assumption | unfold Std.length; lia | assumption].
  - exact Hp.
  - exists (List.length pre). split.
    + rewrite skipn_app, skipn_all, Nat.sub_diag. cbn [app skipn].
      rewrite firstn_app, firstn_all, Nat.sub_diag. cbn. apply app_nil_r.
    + rewrite app_assoc, <- length_app.
      rewrite nth_error_app2, Nat.sub_diag by lia. reflexivity.
Qed.

Lemma extractStrings_sound_witness :
  Forall (fun s =>
            2 <= Std.length s /\
            Forall (fun c => 32 <= bits c <= 126) s /\
            exists off : nat,
              firstn (List.length s) (skipn off hi_bang_nul) = s /\
              nth_error hi_bang_nul (off + List.length s) = Some x00)
         (extractStrings LP64 hi_bang_nul 2).
Proof.
  apply (extractStrings_sound LP64 hi_bang_nul 2). jni_range.
Defined.

(** The second end-to-end scenario of the specification. *)
Example extractStrings_scenario2 (a : abi) :
  extractStrings a [x48; x69; x00; x21] 3 = [] /\
  extractStrings a [x48; x69; x21; x00] 2 = [[x48; x69; x21]].
Proof. destruct a; split; reflexivity. Qed.

(** C5, as stated, fails: with threshold 0 a 0 byte that follows no
    printable character is returned as the empty string. *)
Lemma extractStrings_empty_string :
  ~ Forall (fun s => (1 <= List.length s)%nat)
      (extractStrings LP64 [x00] 0).
Proof.
  change (extractStrings LP64 [x00] 0) with [@nil byte].
  intros H. inversion H as [|? ? Hlen _]. cbn in Hlen. lia.
Qed.

(** C5, amended. For every threshold other than 0, every string
    [extractStrings] returns has at least one character. *)
Theorem extractStrings_nonempty (a : abi) (B : list jbyte) (m : Z) :
  jint_range m -> m <> 0 ->
  Forall (fun s => (1 <= List.length s)%nat) (extractStrings a B m).
Proof.
  intros Hr Hm. eapply Forall_impl; [|apply extractStrings_collected].
  cbv beta. intros s (_ & Hlen & _). unfold Std.length in Hlen.
  destruct (Z_lt_le_dec m 0) as [Hneg|Hpos].
  - pose proof (int_to_size_t_neg a m Hr Hneg). lia.
  - rewrite int_to_size_t_nonneg in Hlen by (assumption || lia). lia.
Qed.

Lemma extractStrings_nonempty_witness :
  Forall (fun s => (1 <= List.length s)%nat)
    (extractStrings ILP32 [x00; x41; x00] 1).
Proof.
  apply (extractStrings_nonempty ILP32 [x00; x41; x00] 1).
  - jni_range.
  - discriminate.
Defined.

(** C7. A printable run that reaches the end of the buffer with no 0 byte
    after it is not returned, however long it is: the buffer with the run
    appended yields what the buffer alone yields, and the run alone yields
    nothing. *)
Theorem extractStrings_unterminated (a : abi) (B R : list jbyte) (m : Z) :
  Forall (fun c => 32 <= bits c <= 126) R ->
  extractStrings a (B ++ R) m = extractStrings a B m /\
  extractStrings a R m = [].
Proof.
  intros HR. rewrite !extractStrings_scan.
  pose proof (scan_printable_run a m R) as Hrun.
  specialize (fun st => Hrun st HR). split.
  - rewrite scan_app. apply Hrun.
  - apply Hrun.
Qed.

Lemma extractStrings_unterminated_witness :
  extractStrings LP64 ([x48; x69; x00] ++ [x61; x62; x63; x64]) 2
  = extractStrings LP64 [x48; x69; x00] 2 /\
  extractStrings LP64 [x61; x62; x63; x64] 2 = [].
Proof.
  apply (extractStrings_unterminated LP64 [x48; x69; x00]
           [x61; x62; x63; x64] 2).
  repeat constructor; cbn; lia.
Defined.

(** C8. With a negative [minLength] nothing is returned: the threshold is
    converted to [size_t] for the comparison and becomes a number of at
    least 2^31, which the length of the accumulator, bounded by the length
    of the Java array, never reaches. *)
Theorem extractStrings_negative (a : abi) (B : list jbyte) (m : Z) :
  jarray_ok B -> jint_range m -> m < 0 ->
  extractStrings a B m = [].
Proof.
  intros HB Hr Hm. rewrite extractStrings_scan.
  apply scan_negative; [exact Hr | exact Hm | exact HB | reflexivity].
Qed.

Lemma extractStrings_negative_witness :
  extractStrings LP64 [x48; x69; x21; x00] (-1) = [].
Proof.
  apply (extractStrings_negative LP64 [x48; x69; x21; x00] (-1)).
  - jni_range.
  - jni_range.
  - lia.
Defined.

End ExtractStrings.

(** ** calculateHash *)

Section Hash.

(** C10. [calculateHash] does not depend on its input: on any two buffers
    it returns the same string, which is 64 characters, each of them '0'. *)
Theorem calculateHash_constant (B B' : list jbyte) :
  calculateHash B = calculateHash B' /\
  String.length (calculateHash B) = 64%nat /\
  calculateHash B = string_of_list_ascii (repeat "0"%char 64).
Proof. repeat split. Qed.

(** C4 is not met by the code: on the empty buffer [calculateHash] returns
    the string of zeros, which is not the SHA-256 digest of the empty
    input. *)
Theorem calculateHash_empty_not_sha256 :
  calculateHash [] = string_of_list_ascii (repeat "0"%char 64) /\
  calculateHash [] <> sha256_empty_hex.
Proof. split; [reflexivity | discriminate]. Qed.

End Hash.

(** ** disassembleARM64 *)

Section Disassembly.

Lemma disassembleARM64_nil (code : list jbyte) (address : Z) :
  disassembleARM64 code address = [].
Proof. reflexivity. Qed.

(** The instructions returned cover the prefix of whole instructions only
    when the code holds no whole instruction. *)
Lemma disassembleARM64_covers_iff
    (rawBytes : String.string -> list byte)
    (code : list jbyte) (address : Z) :
  List.concat (map rawBytes (disassembleARM64 code address))
  = covered_prefix code
  <-> (List.length code < arm64_min_width)%nat.
Proof.
  rewrite disassembleARM64_nil. unfold covered_prefix, arm64_min_width.
  cbn [map List.concat].
  split.
  - intros E. apply (f_equal (@List.length _)) in E.
    rewrite length_firstn in E. cbn [List.length] in E.
    pose proof (Nat.div_mod_eq (List.length code) 4) as D.
    pose proof (Nat.mod_upper_bound (List.length code) 4 ltac:(lia)).
    lia.
  - intros H. now rewrite Nat.div_small.
Qed.

(** C3 is not met by the code: on the four bytes of one NOP
    [disassembleARM64] returns no instruction, so whatever the raw bytes
    of a returned instruction are taken to be, their concatenation is
    empty and not the four bytes of the code. *)
Theorem disassembleARM64_drops_code
    (rawBytes : String.string -> list byte) :
  disassembleARM64 arm64_nop 4096 = [] /\
  covered_prefix arm64_nop = arm64_nop /\
  List.concat (map rawBytes (disassembleARM64 arm64_nop 4096))
    <> covered_prefix arm64_nop.
Proof. repeat split. discriminate. Qed.

End Disassembly.

(** * Further properties of the code *)

(** ** parseELFHeader: what the result depends on *)

Section ElfHeaderMore.

(** Only the length test and the first nine bytes decide the result. *)
Lemma parseELFHeader_first9 (B : list jbyte) :
  20 <= GetArrayLength B ->
  parseELFHeader B
  = match firstn 9 B with
    | [b0; b1; b2; b3; c; d; v; o; a] =>
        if Byte.eqb b0 x7f && Byte.eqb b1 x45 && Byte.eqb b2 x4c
           && Byte.eqb b3 x46
        then Some (map jbyte_to_int [c; d; v; o; a])
        else None
    | _ => None
    end.
Proof.
  intros Hlen. pose proof Hlen as Hlen'. unfold GetArrayLength in Hlen'.
  destruct B as [|b0 [|b1 [|b2 [|b3 [|c [|d [|v [|o [|a0 B]]]]]]]]];
    try (cbn in Hlen'; lia).
  cbn [firstn].
  destruct (Byte.eqb b0 x7f && Byte.eqb b1 x45 && Byte.eqb b2 x4c
            && Byte.eqb b3 x46) eqn:E.
  - rewrite !andb_true_iff in E. destruct E as [[[E0 E1] E2] E3].
    apply Byte.byte_dec_bl in E0, E1, E2, E3. subst.
    apply parseELFHeader_some. split; [exact Hlen | reflexivity].
  - destruct (parseELFHeader _) eqn:P; [|reflexivity].
    exfalso. apply parseELFHeader_inv in P as [[_ Hm] _].
    unfold elf_magic in Hm. cbn in Hm. inversion Hm. subst.
    cbn in E. discriminate.
Qed.

(** X2. Two buffers of at least 20 bytes that agree on their first nine
    bytes get the same result: nothing from offset 9 on is looked at. *)
Theorem parseELFHeader_ignores_rest (B B' : list jbyte) :
  20 <= GetArrayLength B -> 20 <= GetArrayLength B' ->
  firstn 9 B = firstn 9 B' ->
  parseELFHeader B = parseELFHeader B'.
Proof.
  intros H H' E.
  now rewrite (parseELFHeader_first9 B H), (parseELFHeader_first9 B' H'), E.
Qed.

(** X3. Data appended to an accepted buffer does not change the result. *)
Theorem parseELFHeader_app (B T : list jbyte) (r : list Z) :
  parseELFHeader B = Some r -> parseELFHeader (B ++ T) = Some r.
Proof.
  intros E. pose proof (parseELFHeader_inv B r E) as [[Hlen _] _].
  assert (Hlen' : 20 <= GetArrayLength (B ++ T)).
  { unfold GetArrayLength in *. rewrite length_app. lia. }
  rewrite <- E. rewrite (parseELFHeader_first9 B Hlen).
  rewrite (parseELFHeader_first9 _ Hlen').
  rewrite firstn_app.
  replace (9 - List.length B)%nat with 0%nat
    by (unfold GetArrayLength in Hlen; lia).
  cbn [firstn]. now rewrite app_nil_r.
Qed.

(** X4. The five bytes at offsets 4..8 can be read back from the result:
    casting each integer to [unsigned char] gives the byte it came from, so
    the promotion to [jint] loses nothing. *)
Theorem parseELFHeader_bytes_back (B : list jbyte) (r : list Z) :
  parseELFHeader B = Some r ->
  map (fun x => to_char (to_uchar x)) r = firstn 5 (skipn 4 B).
Proof.
  intros E. apply parseELFHeader_inv in E as [_ ->].
  rewrite map_map. rewrite <- (map_id (firstn 5 (skipn 4 B))) at 2.
  apply map_ext. intros b. now rewrite to_uchar_jbyte, to_char_bits.
Qed.

Lemma parseELFHeader_ignores_rest_witness :
  parseELFHeader scenario1 = parseELFHeader scenario1_padded.
Proof.
  apply (parseELFHeader_ignores_rest scenario1 scenario1_padded).
  - jni_range.
  - jni_range.
  - reflexivity.
Defined.

Lemma parseELFHeader_app_witness :
  parseELFHeader (scenario1 ++ [x2e; x73; x6f]) = Some [2; 1; 1; 0; 0].
Proof.
  apply (parseELFHeader_app scenario1 [x2e; x73; x6f] [2; 1; 1; 0; 0]).
  reflexivity.
Defined.

Lemma parseELFHeader_bytes_back_witness :
  map (fun x => to_char (to_uchar x)) [2; 1; 1; -1; 0]
  = firstn 5 (skipn 4 header_osabi_ff).
Proof.
  apply (parseELFHeader_bytes_back header_osabi_ff [2; 1; 1; -1; 0]).
  reflexivity.
Defined.

(** The magic of [scenario1] with its 'L' turned into 'l'. *)
Lemma parseELFHeader_magic_corrupted_witness :
  parseELFHeader ([x7f; x45] ++ x6c :: skipn 3 scenario1) = None.
Proof.
  apply (parseELFHeader_magic_corrupted [x7f; x45] (skipn 3 scenario1)
           x4c x6c).
  - cbn. lia.
  - discriminate.
  - discriminate.
Defined.

End ElfHeaderMore.

(** ** extractStrings: how the result is built from the runs of the buffer *)

Section ScanMore.

Variable a : abi.
Variable m : Z.

(** A printable run is appended to the accumulator. *)
Lemma scan_run (s : list jbyte) (st : locals) :
  Forall printable s ->
  scan a m s st = {| strings := strings st; current := current st ++ s |}.
Proof.
  intros Hs. revert st. induction Hs as [|b s Hb _ IH]; intros st.
  - destruct st. cbn. now rewrite app_nil_r.
  - rewrite scan_cons, IH, loop_body_printable by assumption. cbn.
    now rewrite <- app_assoc.
Qed.

(** The strings collected before a point stay, in front of the ones
    collected after it. *)
Lemma scan_strings_app (l : list jbyte) (st : locals) :
  strings (scan a m l st)
  = strings st
    ++ strings (scan a m l {| strings := []; current := current st |}).
Proof.
  revert st. induction l as [|b l IH]; intros st.
  - cbn. now rewrite app_nil_r.
  - rewrite !scan_cons.
    destruct (byte_cases b) as [Hb | [-> | [Hnp Hnz]]].
    + rewrite !loop_body_printable by assumption. now rewrite IH.
    + rewrite !loop_body_nul. cbn [current strings].
      destruct (Std.length (current st) >=? int_to_size_t a m).
      * rewrite IH. cbn [current strings app].
        rewrite (IH {| strings := [current st]; current := [] |}).
        cbn [current strings]. now rewrite <- app_assoc.
      * now rewrite IH.
    + rewrite !loop_body_other by assumption. now rewrite IH.
Qed.

(** After a byte that is not printable the accumulator is empty. *)
Lemma scan_break (B : list jbyte) (b : jbyte) (st : locals) :
  ~ printable b -> current (scan a m (B ++ [b]) st) = [].
Proof.
  intros Hb. rewrite scan_app. set (st' := scan a m B st).
  change (scan a m [b] st') with (loop_body a m st' b).
  destruct (byte_cases b) as [Hp | [-> | [Hnp Hnz]]].
  - contradiction.
  - rewrite loop_body_nul. now destruct (_ >=? _).
  - now rewrite loop_body_other.
Qed.

Lemma extractStrings_from (l : list jbyte) (ss : list Std.string) :
  strings (scan a m l {| strings := ss; current := [] |})
  = ss ++ extractStrings a l m.
Proof.
  rewrite scan_strings_app, extractStrings_scan. reflexivity.
Qed.

End ScanMore.

Section Runs.

(** X5. A byte that is not printable separates the buffer: the strings of
    the whole are those found up to and including that byte, followed by
    those of the rest. *)
Theorem extractStrings_split
    (a : abi) (B1 B2 : list jbyte) (b : jbyte) (m : Z) :
  ~ (32 <= bits b <= 126) ->
  extractStrings a (B1 ++ b :: B2) m
  = extractStrings a (B1 ++ [b]) m ++ extractStrings a B2 m.
Proof.
  intros Hb.
  replace (B1 ++ b :: B2) with ((B1 ++ [b]) ++ B2)
    by (rewrite <- app_assoc; reflexivity).
  rewrite (extractStrings_scan a m ((B1 ++ [b]) ++ B2)), scan_app.
  rewrite scan_strings_app, (scan_break a m B1 b locals_init Hb).
  now rewrite <- !extractStrings_scan.
Qed.

Lemma extractStrings_split_witness :
  extractStrings LP64 ([x48; x69; x00] ++ x0a :: [x4f; x4b; x00]) 2
  = extractStrings LP64 ([x48; x69; x00] ++ [x0a]) 2
    ++ extractStrings LP64 [x4f; x4b; x00] 2.
Proof.
  apply (extractStrings_split LP64 [x48; x69; x00] [x4f; x4b; x00] x0a 2).
  cbn. lia.
Defined.

(** X6. A printable run at the start of the buffer that a 0 byte ends is
    returned first when it has at least [m] characters and dropped
    otherwise; the scan goes on after the 0 byte as on a fresh buffer. *)
Theorem extractStrings_terminated_run
    (a : abi) (s rest : list jbyte) (m : Z) :
  Forall (fun c => 32 <= bits c <= 126) s ->
  jint_range m -> 0 <= m ->
  extractStrings a (s ++ x00 :: rest) m
  = (if m <=? Std.length s then [s] else []) ++ extractStrings a rest m.
Proof.
  intros Hs Hr Hm. rewrite (extractStrings_scan a m (s ++ x00 :: rest)).
  rewrite scan_app, (scan_run a m s locals_init Hs), scan_cons.
  rewrite loop_body_nul. cbn [current strings locals_init app].
  rewrite Z.geb_leb, (int_to_size_t_nonneg a m Hr Hm).
  destruct (m <=? Std.length s); apply extractStrings_from.
Qed.

Lemma extractStrings_terminated_run_witness :
  extractStrings LP64 ([x48; x69; x21] ++ x00 :: [x4f; x4b; x00]) 3
  = (if 3 <=? Std.length [x48; x69; x21] then [[x48; x69; x21]] else [])
    ++ extractStrings LP64 [x4f; x4b; x00] 3.
Proof.
  apply (extractStrings_terminated_run LP64
           [x48; x69; x21] [x4f; x4b; x00] 3).
  - repeat constructor; cbn; lia.
  - jni_range.
  - lia.
Defined.

(** X7. A printable run that a byte other than 0 ends (a line feed, a byte
    of 128 or more, ...) is dropped whatever its length, and the scan goes
    on after that byte as on a fresh buffer. *)
Theorem extractStrings_broken_run
    (a : abi) (s rest : list jbyte) (b : jbyte) (m : Z) :
  Forall (fun c => 32 <= bits c <= 126) s ->
  ~ (32 <= bits b <= 126) -> b <> x00 ->
  extractStrings a (s ++ b :: rest) m = extractStrings a rest m.
Proof.
  intros Hs Hnp Hnz. rewrite (extractStrings_scan a m (s ++ b :: rest)).
  rewrite scan_app, (scan_run a m s locals_init Hs), scan_cons.
  rewrite loop_body_other by assumption.
  cbn [current strings locals_init]. apply extractStrings_from.
Qed.

Lemma extractStrings_broken_run_witness :
  extractStrings LP64 ([x48; x69; x21] ++ x0a :: [x4f; x4b; x00]) 2
  = extractStrings LP64 [x4f; x4b; x00] 2.
Proof.
  apply (extractStrings_broken_run LP64
           [x48; x69; x21] [x4f; x4b; x00] x0a 2).
  - repeat constructor; cbn; lia.
  - cbn. lia.
  - discriminate.
Defined.

End Runs.

(** ** extractStrings: thresholds, counts and sizes *)

Section Counting.

Variable a : abi.

(** The loop body depends on the ABI and on [minLength] through the
    converted threshold only. *)
Lemma loop_body_threshold (a' : abi) (m m' : Z) (st : locals) (b : jbyte) :
  int_to_size_t a m = int_to_size_t a' m' ->
  loop_body a m st b = loop_body a' m' st b.
Proof. unfold loop_body. now intros ->. Qed.

Lemma scan_threshold (a' : abi) (m m' : Z) (l : list jbyte) (st : locals) :
  int_to_size_t a m = int_to_size_t a' m' ->
  scan a m l st = scan a' m' l st.
Proof.
  intros E. revert st. induction l as [|b l IH]; intros st; [reflexivity|].
  now rewrite !scan_cons, IH, (loop_body_threshold a' m m').
Qed.

(** Two scans of the same bytes under thresholds [m <= m']: the
    accumulators agree and the strings of the second are those of the first
    that reach [m']. *)
Lemma scan_filter (m m' : Z) (l : list jbyte) (st st' : locals) :
  int_to_size_t a m = m -> int_to_size_t a m' = m' -> m <= m' ->
  current st' = current st ->
  strings st' = filter (long_enough m') (strings st) ->
  current (scan a m' l st') = current (scan a m l st) /\
  strings (scan a m' l st')
  = filter (long_enough m') (strings (scan a m l st)).
Proof.
  intros Em Em' Hle. revert st st'.
  induction l as [|b l IH]; intros st st' Hc Hs; [now split|].
  rewrite !scan_cons. apply IH;
    destruct (byte_cases b) as [Hb | [-> | [Hnp Hnz]]];
    rewrite ?loop_body_printable, ?loop_body_other, ?loop_body_nul
      by assumption;
    cbn [current strings]; try congruence.
  - rewrite Hc. now destruct (_ >=? _), (_ >=? _).
  - rewrite Hc, Em, Em', !Z.geb_leb.
    destruct (Z.leb_spec m' (Std.length (current st))) as [H'|H'],
      (Z.leb_spec m (Std.length (current st))) as [H|H];
      cbn [current strings]; try lia; rewrite ?filter_app, Hs; cbn [filter];
      unfold long_enough.
    + apply Z.leb_le in H'. now rewrite H'.
    + apply Z.leb_gt in H'. now rewrite H', app_nil_r.
    + reflexivity.
Qed.

(** Every 0 byte yields at most one string, and exactly one under the
    threshold 0. *)
Lemma scan_count (m : Z) (l : list jbyte) (st : locals) :
  (List.length (strings (scan a m l st))
   <= List.length (strings st) + nul_count l)%nat /\
  (int_to_size_t a m = 0 ->
   List.length (strings (scan a m l st))
   = (List.length (strings st) + nul_count l)%nat).
Proof.
  revert st. unfold nul_count, jbyte in *.
  induction l as [|b l IH]; intros st; [cbn; lia|].
  rewrite scan_cons. destruct (IH (loop_body a m st b)) as [IH1 IH2].
  destruct (byte_cases b) as [Hb | [-> | [Hnp Hnz]]].
  - rewrite count_occ_cons_neq by (now apply printable_not_nul).
    rewrite loop_body_printable in * by assumption. now split.
  - rewrite count_occ_cons_eq by reflexivity.
    rewrite loop_body_nul in *.
    destruct (Z.geb_spec (Std.length (current st)) (int_to_size_t a m))
      as [H|H]; cbn [strings] in *.
    + rewrite length_app in IH1, IH2. cbn [List.length] in IH1, IH2.
      split; [lia | intros E; rewrite (IH2 E); lia].
    + split; [lia | intros E]. rewrite E in H. unfold Std.length in H. lia.
  - rewrite count_occ_cons_neq by assumption.
    rewrite loop_body_other in * by assumption. now split.
Qed.

Lemma footprint_snoc (ss : list Std.string) (s : Std.string) :
  footprint (ss ++ [s]) = (footprint ss + S (List.length s))%nat.
Proof.
  unfold footprint. rewrite map_app, list_sum_app.
  cbn [map list_sum fold_right]. now rewrite Nat.add_0_r.
Qed.

(** The strings collected and the accumulator never hold more than the
    bytes read. *)
Lemma scan_footprint (m : Z) (l : list jbyte) (st : locals) :
  (footprint (strings (scan a m l st))
   + List.length (current (scan a m l st))
   <= footprint (strings st) + List.length (current st) + List.length l)%nat.
Proof.
  revert st. induction l as [|b l IH]; intros st; [cbn; lia|].
  rewrite scan_cons. eapply Nat.le_trans; [apply IH|].
  cbn [List.length].
  destruct (byte_cases b) as [Hb | [-> | [Hnp Hnz]]].
  - rewrite loop_body_printable by assumption. cbn [strings current].
    rewrite length_app. cbn [List.length]. lia.
  - rewrite loop_body_nul.
    destruct (_ >=? _); cbn [strings current List.length]; [|lia].
    rewrite footprint_snoc. lia.
  - rewrite loop_body_other by assumption.
    cbn [strings current List.length]. lia.
Qed.

End Counting.

Section Results.

(** X8. Raising the threshold only removes strings: under [m'] the result
    is the result under a smaller threshold [m >= 0] with the strings
    shorter than [m'] taken out, the others in the same order. *)
Theorem extractStrings_raise_threshold
    (a : abi) (B : list jbyte) (m m' : Z) :
  jint_range m -> jint_range m' -> 0 <= m <= m' ->
  extractStrings a B m'
  = filter (fun s => m' <=? Std.length s) (extractStrings a B m).
Proof.
  intros Hr Hr' [H0 Hle]. rewrite !extractStrings_scan.
  apply (scan_filter a m m' B locals_init locals_init);
    try reflexivity; try assumption;
    apply int_to_size_t_nonneg; (assumption || lia).
Qed.

Lemma extractStrings_raise_threshold_witness :
  extractStrings ILP32 [x48; x69; x00; x00; x41; x42; x43; x00] 3
  = filter (fun s => 3 <=? Std.length s)
      (extractStrings ILP32 [x48; x69; x00; x00; x41; x42; x43; x00] 0).
Proof.
  apply (extractStrings_raise_threshold ILP32
           [x48; x69; x00; x00; x41; x42; x43; x00] 0 3).
  - jni_range.
  - jni_range.
  - lia.
Defined.

(** X9. There is at most one returned string for each 0 byte of the
    buffer, and under the threshold 0 exactly one. *)
Theorem extractStrings_count (a : abi) (B : list jbyte) (m : Z) :
  (List.length (extractStrings a B m) <= nul_count B)%nat /\
  List.length (extractStrings a B 0) = nul_count B.
Proof.
  rewrite !extractStrings_scan. split.
  - apply (scan_count a m B locals_init).
  - apply (scan_count a 0 B locals_init). now destruct a.
Qed.

(** X10. The returned strings, each counted with the 0 byte that ended it,
    take no more bytes than the buffer has. *)
Theorem extractStrings_footprint (a : abi) (B : list jbyte) (m : Z) :
  (footprint (extractStrings a B m) <= List.length B)%nat.
Proof.
  rewrite extractStrings_scan.
  pose proof (scan_footprint a m B locals_init) as H.
  cbn [locals_init strings current footprint map list_sum fold_right
       List.length] in H.
  lia.
Qed.

(** X11. The result does not depend on the width of [size_t]: a 32-bit and
    a 64-bit build return the same strings for the same Java array and
    threshold. *)
Theorem extractStrings_abi_independent (B : list jbyte) (m : Z) :
  jarray_ok B -> jint_range m ->
  extractStrings ILP32 B m = extractStrings LP64 B m.
Proof.
  intros HB Hr. rewrite !extractStrings_scan.
  destruct (Z_lt_le_dec m 0) as [Hneg|Hpos].
  - now rewrite !scan_negative.
  - f_equal. apply scan_threshold.
    now rewrite !int_to_size_t_nonneg.
Qed.

Lemma extractStrings_abi_independent_witness :
  extractStrings ILP32 [x48; x69; x21; x00] (-2)
  = extractStrings LP64 [x48; x69; x21; x00] (-2).
Proof.
  apply (extractStrings_abi_independent [x48; x69; x21; x00] (-2)).
  - jni_range.
  - jni_range.
Defined.

(** X12. A buffer with no 0 byte yields no string, whatever the threshold. *)
Theorem extractStrings_no_nul (a : abi) (B : list jbyte) (m : Z) :
  ~ In x00 B -> extractStrings a B m = [].
Proof.
  intros Hn. apply length_zero_iff_nil.
  pose proof (scan_count a m B locals_init) as [H _].
  rewrite <- extractStrings_scan in H. unfold nul_count in H.
  apply (count_occ_not_In Byte.byte_eq_dec) in Hn.
  rewrite Hn in H. cbn [locals_init strings List.length Nat.add] in H.
  apply Nat.le_0_r in H. exact H.
Qed.

Lemma extractStrings_no_nul_witness :
  extractStrings LP64 [x48; x69; x0a; x4f; x4b] 0 = [].
Proof.
  apply (extractStrings_no_nul LP64 [x48; x69; x0a; x4f; x4b] 0).
  cbn. intuition discriminate.
Defined.

End Results.

(** ** extractStrings: every terminated run is found *)

Section Completeness.

(** From an empty accumulator, a printable run and the 0 byte after it add
    the run to the strings when it reaches the threshold. *)
Lemma scan_terminated_run
    (a : abi) (m : Z) (s rest : list jbyte) (ss : list Std.string) :
  Forall printable s ->
  strings (scan a m (s ++ x00 :: rest) {| strings := ss; current := [] |})
  = ss ++ (if Std.length s >=? int_to_size_t a m then [s] else [])
       ++ extractStrings a rest m.
Proof.
  intros Hs. rewrite scan_app, (scan_run a m s _ Hs), scan_cons.
  rewrite loop_body_nul. cbn [current strings app].
  destruct (_ >=? _); rewrite extractStrings_from.
  - now rewrite <- app_assoc.
  - reflexivity.
Qed.

(** X13. A printable run of at least [m >= 0] characters that a 0 byte ends
    is returned when it starts the buffer or follows a byte that is not
    printable. *)
Theorem extractStrings_complete
    (a : abi) (s post : list jbyte) (m : Z) :
  Forall (fun c => 32 <= bits c <= 126) s ->
  jint_range m -> 0 <= m <= Std.length s ->
  In s (extractStrings a (s ++ x00 :: post) m) /\
  (forall (pre : list jbyte) (b : jbyte),
     ~ (32 <= bits b <= 126) ->
     In s (extractStrings a (pre ++ b :: s ++ x00 :: post) m)).
Proof.
  intros Hs Hr [H0 Hlen].
  assert (Hthr : (Std.length s >=? int_to_size_t a m) = true).
  { rewrite Z.geb_leb, int_to_size_t_nonneg by assumption.
    now apply Z.leb_le. }
  split.
  - rewrite extractStrings_scan. unfold locals_init.
    rewrite (scan_terminated_run a m s post [] Hs), Hthr.
    now left.
  - intros pre b Hb. rewrite extractStrings_scan.
    replace (pre ++ b :: s ++ x00 :: post)
      with ((pre ++ [b]) ++ s ++ x00 :: post)
      by (rewrite <- app_assoc; reflexivity).
    rewrite scan_app.
    pose proof (scan_break a m pre b locals_init Hb) as Hc.
    destruct (scan a m (pre ++ [b]) locals_init) as [ss cur].
    cbn in Hc. subst cur.
    rewrite (scan_terminated_run a m s post ss Hs), Hthr.
    apply in_or_app. right. now left.
Qed.

Lemma extractStrings_complete_witness :
  In [x4f; x4b] (extractStrings LP64 ([x4f; x4b] ++ x00 :: [x41]) 2) /\
  (forall (pre : list jbyte) (b : jbyte),
     ~ (32 <= bits b <= 126) ->
     In [x4f; x4b]
        (extractStrings LP64 (pre ++ b :: [x4f; x4b] ++ x00 :: [x41]) 2)).
Proof.
  apply (extractStrings_complete LP64 [x4f; x4b] [x41] 2).
  - repeat constructor; cbn; lia.
  - jni_range.
  - cbn. lia.
Defined.

End Completeness.
